(** * lcgrandom.py: a linear congruential generator with fast skipping
      and backward iteration

    Shallow embedding of the class [LcgRandom] of
    fast-skipping-in-a-linear-congruential-generator/lcgrandom.py and of
    its demo main program, with the properties of the constructor, of
    [next], [previous], [skip], [randbit], [getrandbits], of the static
    method [reciprocal_mod] and of the correctness check the main program
    runs.  [random], which divides floats, and [__new__] are left out.

    Python integers are unbounded, so they are [Z].  Python's [//] and [%]
    round towards minus infinity, which is what [Z.div] and [Z.modulo] do;
    they differ from Python only at a zero divisor, where Python raises. *)

From Stdlib Require Import ZArith Lia Bool List.
Import ListNotations.
Local Open Scope Z_scope.

(** ** The Python operations the file relies on *)

Module Py.

(** The exceptions this file can raise: [assert] raises [AssertionError],
    [reciprocal_mod] raises [ValueError] explicitly and so does the builtin
    [pow] given a zero modulus, [//] and [%] raise [ZeroDivisionError]. *)
Inductive exn : Set :=
| AssertionError
| ValueError
| ZeroDivisionError.

Inductive outcome (A : Type) : Type :=
| Ret (v : A)
| Raise (e : exn).
Arguments Ret {A} v.
Arguments Raise {A} e.

Definition bind {A B : Type} (c : outcome A) (k : A -> outcome B) : outcome B :=
  match c with
  | Ret v => k v
  | Raise e => Raise e
  end.

(** [assert c] *)
Definition assert (c : bool) : outcome unit :=
  if c then Ret tt else Raise AssertionError.

(** [x // y] *)
Definition floordiv (x y : Z) : outcome Z :=
  if y =? 0 then Raise ZeroDivisionError else Ret (x / y).

(** [x % y] *)
Definition mod_ (x y : Z) : outcome Z :=
  if y =? 0 then Raise ZeroDivisionError else Ret (x mod y).

(** [pow(base, e, modulus)].  A zero modulus is a [ValueError].  A negative
    exponent is refused by Python 2 and by Python 3 before 3.8; [skip], the
    only caller, negates a negative count first and never passes one. *)
Definition pow (base e modulus : Z) : outcome Z :=
  if modulus =? 0 then Raise ValueError
  else if e <? 0 then Raise ValueError
  else Ret (base ^ e mod modulus).

(** [range(k)]: empty when [k <= 0]. *)
Definition range (k : Z) : list Z :=
  map Z.of_nat (seq 0 (Z.to_nat k)).

End Py.

Import Py.

Declare Scope outcome_scope.
Delimit Scope outcome_scope with outcome.
Notation "x <- c ;; k" := (Py.bind c (fun x => k))
  (at level 61, c at next level, right associativity) : outcome_scope.
Notation "c ;; k" := (Py.bind c (fun _ => k))
  (at level 61, right associativity) : outcome_scope.

(** ** The object and its methods *)

(** The instance attributes set by [__init__]. *)
Record LcgRandom : Set := mkLcgRandom {
  self_a : Z;     (* Multiplier *)
  self_ainv : Z;
  self_b : Z;     (* Increment *)
  self_m : Z;     (* Modulus *)
  self_x : Z      (* State *)
}.

(** A method is run on the object: it yields a value or raises, and in
    both cases leaves the object as it was mutated so far. *)
Definition method (A : Type) : Type := LcgRandom -> outcome A * LcgRandom.

Definition mret {A : Type} (v : A) : method A :=
  fun self => (Ret v, self).

Definition mbind {A B : Type} (c : method A) (k : A -> method B) : method B :=
  fun self =>
    match c self with
    | (Ret v, self') => k v self'
    | (Raise e, self') => (Raise e, self')
    end.

(** An expression that may raise, evaluated inside a method. *)
Definition eval {A : Type} (o : outcome A) : method A :=
  fun self => (o, self).

(** Reading [self]. *)
Definition this : method LcgRandom :=
  fun self => (Ret self, self).

(** The object with [v] as its attribute [x], the others as they were. *)
Definition with_x (self : LcgRandom) (v : Z) : LcgRandom :=
  mkLcgRandom (self_a self) (self_ainv self) (self_b self) (self_m self) v.

(** [self.x = v] *)
Definition set_x (v : Z) : method unit :=
  fun self => (Ret tt, with_x self v).

Declare Scope method_scope.
Delimit Scope method_scope with method.
Notation "x <- c ;; k" := (mbind c (fun x => k))
  (at level 61, c at next level, right associativity) : method_scope.
Notation "c ;; k" := (mbind c (fun _ => k))
  (at level 61, right associativity) : method_scope.

(** The outcome and the object after running a method. *)
Definition result {A : Type} (r : outcome A * LcgRandom) : outcome A := fst r.
Definition after {A : Type} (r : outcome A * LcgRandom) : LcgRandom := snd r.

(** *** reciprocal_mod *)

(** The body of [while y != 0], run at most [fuel] times on the loop
    variables [(x, y, a, b)]. *)
Fixpoint reciprocal_loop (fuel : nat) (x y a b : Z) : Z * Z * Z * Z :=
  match fuel with
  | O => (x, y, a, b)
  | S fuel' =>
      if y =? 0 then (x, y, a, b)
      else reciprocal_loop fuel' y (x mod y) b (a - x / y * b)
  end.

(** A number of iterations the loop cannot exceed once the assertion of
    [reciprocal_mod] has passed: the product [x * y] at least halves at
    every iteration (see [reciprocal_loop_exits]). *)
Definition reciprocal_fuel (x mod_ : Z) : nat :=
  S (Z.to_nat (Z.log2 (mod_ * x) + 1)).

Definition reciprocal_mod (x mod_ : Z) : outcome Z :=
  (Py.assert ((mod_ >? 0) && ((0 <=? x) && (x <? mod_))) ;;
   let y := x in
   let x := mod_ in
   let a := 0 in
   let b := 1 in
   let '(x, y, a, b) := reciprocal_loop (reciprocal_fuel y x) x y a b in
   if x =? 1 then Ret (a mod mod_)
   else Raise ValueError)%outcome.

(** *** __init__ *)

(** The [isinstance(_, numbers.Integral)] conjuncts hold by typing. *)
Definition __init__ (a b m seed : Z) : outcome LcgRandom :=
  (Py.assert (a >? 0) ;;
   Py.assert (b >=? 0) ;;
   Py.assert (m >? 0) ;;
   Py.assert ((0 <=? seed) && (seed <? m)) ;;
   ainv <- reciprocal_mod a m ;;
   Ret (mkLcgRandom a ainv b m seed))%outcome.

(** *** get_state, next, previous, skip *)

Definition get_state : method Z :=
  (self <- this ;; mret (self_x self))%method.

Definition next : method unit :=
  (self <- this ;;
   v <- eval (Py.mod_ (self_x self * self_a self + self_b self) (self_m self)) ;;
   set_x v)%method.

Definition previous : method unit :=
  (self <- this ;;
   v <- eval (Py.mod_ ((self_x self - self_b self) * self_ainv self) (self_m self)) ;;
   set_x v)%method.

Definition skip (n : Z) : method unit :=
  (self <- this ;;
   let '(a, b, n) :=
     if n >=? 0 then (self_a self, self_b self, n)
     else (self_ainv self, - self_ainv self * self_b self, - n) in
   let a1 := a - 1 in
   let ma := a1 * self_m self in
   p <- eval (Py.pow a n ma) ;;
   q <- eval (Py.floordiv (p - 1) a1) ;;
   let y := q * b in
   r <- eval (Py.pow a n (self_m self)) ;;
   let z := r * self_x self in
   v <- eval (Py.mod_ (y + z) (self_m self)) ;;
   set_x v)%method.

(** *** randbit, getrandbits *)

Definition randbit : method bool :=
  (next ;;
   self <- this ;;
   mret (self_x self >=? Z.shiftr (self_m self) 1))%method.

(** [for i in range(k): result = body(i, result)] *)
Fixpoint for_in (l : list Z) (body : Z -> Z -> method Z) (result : Z) : method Z :=
  match l with
  | [] => mret result
  | i :: l' => (result' <- body i result ;; for_in l' body result')%method
  end.

(** A [bool] operand of [|] counts as 0 or 1. *)
Definition getrandbits (k : Z) : method Z :=
  for_in (Py.range k)
    (fun _ result =>
       (bit <- randbit ;; mret (Z.lor (Z.shiftl result 1) (Z.b2z bit)))%method)
    0.

(** *** Sequential calls *)

(** [c] called [n] times in a row, stopping at the first call that raises. *)
Fixpoint times (n : nat) (c : method unit) : method unit :=
  match n with
  | O => mret tt
  | S n' => (c ;; times n' c)%method
  end.

(** [1 + A + ... + A^(k-1)], the sum [skip] evaluates in closed form. *)
Fixpoint geometric (A : Z) (k : nat) : Z :=
  match k with
  | O => 0
  | S k' => A ^ Z.of_nat k' + geometric A k'
  end.

(** What the comment of [skip] promises: [n] calls of [next] when
    [n >= 0], [-n] calls of [previous] otherwise. *)
Definition step_by_step (n : Z) : method unit :=
  if n >=? 0 then times (Z.to_nat n) next else times (Z.to_nat (- n)) previous.

(** *** reciprocal_mod with divisions that raise *)

(** The loop of [reciprocal_mod] once more, with [x // y] and [x % y] as
    the Python operations that raise on a zero divisor. *)
Fixpoint reciprocal_loop_raising (fuel : nat) (x y a b : Z) : outcome (Z * Z * Z * Z) :=
  match fuel with
  | O => Ret (x, y, a, b)
  | S fuel' =>
      if y =? 0 then Ret (x, y, a, b)
      else (q <- Py.floordiv x y ;;
            r <- Py.mod_ x y ;;
            reciprocal_loop_raising fuel' y r b (a - q * b))%outcome
  end.

(** [reciprocal_mod] with every division, [a % mod] included, raising on
    a zero divisor. *)
Definition reciprocal_mod_raising (x mod_ : Z) : outcome Z :=
  (Py.assert ((mod_ >? 0) && ((0 <=? x) && (x <? mod_))) ;;
   let y := x in
   let x := mod_ in
   let a := 0 in
   let b := 1 in
   st <- reciprocal_loop_raising (reciprocal_fuel y x) x y a b ;;
   let '(x, y, a, b) := st in
   if x =? 1 then Py.mod_ a mod_
   else Raise ValueError)%outcome.

(** *** The main program *)

(** A method called on an object held in a variable of the main program,
    where nothing catches an exception. *)
Definition call {A : Type} (c : method A) (obj : LcgRandom) : outcome (A * LcgRandom) :=
  match c obj with
  | (Ret v, obj') => Ret (v, obj')
  | (Raise e, _) => Raise e
  end.

(** [for i in l: body], with [randslow] the variable the bodies update. *)
Fixpoint for_each (l : list Z) (body : Z -> LcgRandom -> outcome LcgRandom)
    (randslow : LcgRandom) : outcome LcgRandom :=
  match l with
  | [] => Ret randslow
  | i :: l' => (randslow' <- body i randslow ;; for_each l' body randslow')%outcome
  end.

(** The body of "Check that skipping forward is correct". *)
Definition check_forward (A B M seed i : Z) (randslow : LcgRandom) : outcome LcgRandom :=
  (randfast <- __init__ A B M seed ;;
   skipped <- call (skip i) randfast ;;
   slow <- call get_state randslow ;;
   fast <- call get_state (snd skipped) ;;
   if negb (fst slow =? fst fast) then Raise AssertionError
   else stepped <- call next (snd slow) ;; Ret (snd stepped))%outcome.

(** The body of "Check that backward iteration is correct". *)
Definition check_backward (A B M seed i : Z) (randslow : LcgRandom) : outcome LcgRandom :=
  (stepped <- call previous randslow ;;
   randfast <- __init__ A B M seed ;;
   skipped <- call (skip i) randfast ;;
   slow <- call get_state (snd stepped) ;;
   fast <- call get_state (snd skipped) ;;
   if negb (fst slow =? fst fast) then Raise AssertionError
   else Ret (snd slow))%outcome.

(** The body of "Check that backward skipping is correct". *)
Definition check_backward_skip (A B M seed i : Z) (randslow : LcgRandom) : outcome LcgRandom :=
  (randfast <- __init__ A B M seed ;;
   skipped <- call (skip (- i)) randfast ;;
   slow <- call get_state randslow ;;
   fast <- call get_state (snd skipped) ;;
   if negb (fst slow =? fst fast) then Raise AssertionError
   else stepped <- call previous (snd slow) ;; Ret (snd stepped))%outcome.

(** The demo main program with its constants [A], [B], [M] and [N] as
    arguments; it ends by printing that the test passed. *)
Definition demo (A B M N seed : Z) : outcome unit :=
  (randslow <- __init__ A B M seed ;;
   randslow <- for_each (Py.range N) (check_forward A B M seed) randslow ;;
   randslow <- for_each (rev (Py.range N)) (check_backward A B M seed) randslow ;;
   randslow <- for_each (Py.range N) (check_backward_skip A B M seed) randslow ;;
   Ret tt)%outcome.

(** The main program as it is written, with the parameters of Java's
    generator; [seed] stands for [int(time.time() * 1000)]. *)
Definition main (seed : Z) : outcome unit :=
  let A := 25214903917 in
  let B := 11 in
  let M := Z.shiftl 1 48 in
  let N := 1000 in
  demo A B M N seed.

(** ** Notions used in the statements *)

(** [k] is congruent to [l] modulo [n]. *)
Definition congruent (n k l : Z) : Prop := (n | k - l).

(** What every constructed engine satisfies: the parameters are those the
    constructor accepts, [ainv] inverts [a] modulo [m], and the state is in
    range. *)
Record valid (self : LcgRandom) : Prop := {
  valid_a : 0 < self_a self < self_m self;
  valid_b : 0 <= self_b self;
  valid_ainv : 0 <= self_ainv self < self_m self;
  valid_inverse : (self_a self * self_ainv self) mod self_m self = 1;
  valid_x : 0 <= self_x self < self_m self
}.

(** The objects that calls of the state-changing methods lead to from
    [self0]; a call that raises leaves the object it was made on. *)
Inductive reachable (self0 : LcgRandom) : LcgRandom -> Prop :=
| reach_constructed : reachable self0 self0
| reach_next self :
    reachable self0 self -> reachable self0 (after (next self))
| reach_previous self :
    reachable self0 self -> reachable self0 (after (previous self))
| reach_skip n self :
    reachable self0 self -> reachable self0 (after (skip n self))
| reach_randbit self :
    reachable self0 self -> reachable self0 (after (randbit self))
| reach_getrandbits k self :
    reachable self0 self -> reachable self0 (after (getrandbits k self)).

(** * Properties *)

(** ** reciprocal_mod *)

Section ReciprocalMod.

Lemma congruent_mod n k l : n > 0 -> congruent n k l -> k mod n = l mod n.
Proof.
  intros Hn [c Hc]. replace k with (l + c * n) by lia.
  apply Z.mod_add. lia.
Qed.

Lemma mod_congruent n k l : n > 0 -> k mod n = l mod n -> congruent n k l.
Proof.
  intros Hn H. exists (k / n - l / n).
  pose proof (Z.div_mod k n ltac:(lia)). pose proof (Z.div_mod l n ltac:(lia)). lia.
Qed.

(** One iteration makes the product of the two remainders less than half
    of what it was. *)
Lemma remainder_product_halves x y : 0 < y < x -> 2 * (y * (x mod y)) < x * y.
Proof.
  intros H.
  pose proof (Z.mod_pos_bound x y ltac:(lia)) as Hr.
  pose proof (Z.div_mod x y ltac:(lia)) as Hd.
  assert (1 <= x / y) by (apply Z.div_le_lower_bound; lia).
  nia.
Qed.

Variables x0 n : Z.

(** The loop invariant of the extended Euclidean algorithm that only tracks
    the coefficient of [x0]: [a * x0 = x] and [b * x0 = y] modulo [n], and
    the gcd of [x] and [y] is unchanged.  With enough fuel the loop is left
    through its condition, [y = 0]. *)
Lemma reciprocal_loop_exits fuel : forall x y a b,
  0 <= y < x ->
  x * y < 2 ^ Z.of_nat fuel ->
  congruent n (a * x0) x ->
  congruent n (b * x0) y ->
  exists a' b',
    reciprocal_loop (S fuel) x y a b = (Z.gcd x y, 0, a', b')
    /\ congruent n (a' * x0) (Z.gcd x y).
Proof.
  induction fuel as [|fuel IH]; intros x y a b Hxy Hfuel Ha Hb.
  - assert (y = 0) as -> by (change (2 ^ Z.of_nat 0) with 1 in Hfuel; nia).
    exists a, b. cbn. rewrite Z.gcd_0_r, Z.abs_eq by lia. auto.
  - cbn [reciprocal_loop]. destruct (Z.eqb_spec y 0) as [-> | Hy].
    + exists a, b. rewrite Z.gcd_0_r, Z.abs_eq by lia. auto.
    + pose proof (Z.mod_pos_bound x y ltac:(lia)) as Hr.
      pose proof (remainder_product_halves x y ltac:(lia)) as Hhalf.
      rewrite Nat2Z.inj_succ, Z.pow_succ_r in Hfuel by lia.
      destruct (IH y (x mod y) b (a - x / y * b)) as (a' & b' & Hloop & Ha');
        [lia | lia | assumption | |].
      * destruct Ha as [c Hc], Hb as [d Hd]. exists (c - x / y * d).
        rewrite Z.mod_eq by lia. lia.
      * assert (Z.gcd y (x mod y) = Z.gcd x y) as Hg
          by (rewrite Z.gcd_comm, Z.gcd_mod, Z.gcd_comm by lia; reflexivity).
        rewrite Hg in *. exists a', b'. split; assumption.
Qed.

Lemma reciprocal_fuel_enough : 0 <= x0 < n -> n * x0 < 2 ^ Z.of_nat (Z.to_nat (Z.log2 (n * x0) + 1)).
Proof.
  intros H. pose proof (Z.log2_nonneg (n * x0)).
  rewrite Z2Nat.id by lia.
  destruct (Z.eq_dec (n * x0) 0) as [-> | Hne].
  - reflexivity.
  - apply Z.log2_spec. nia.
Qed.

(** The three ways [reciprocal_mod] ends. *)
Lemma reciprocal_mod_assert : ~ (n > 0 /\ 0 <= x0 < n) -> reciprocal_mod x0 n = Raise AssertionError.
Proof.
  intros H. unfold reciprocal_mod.
  destruct (n >? 0) eqn:E1, (0 <=? x0) eqn:E2, (x0 <? n) eqn:E3; try reflexivity.
  exfalso. apply H. lia.
Qed.

Lemma reciprocal_mod_run : n > 0 -> 0 <= x0 < n ->
  exists a,
    congruent n (a * x0) (Z.gcd n x0)
    /\ reciprocal_mod x0 n = if Z.gcd n x0 =? 1 then Ret (a mod n) else Raise ValueError.
Proof.
  intros Hn Hx. unfold reciprocal_mod, reciprocal_fuel.
  replace ((n >? 0) && ((0 <=? x0) && (x0 <? n))) with true
    by (symmetry; rewrite !andb_true_iff; repeat split; lia).
  cbn [Py.assert Py.bind].
  destruct (reciprocal_loop_exits (Z.to_nat (Z.log2 (n * x0) + 1)) n x0 0 1)
    as (a' & b' & Hloop & Ha'); [lia | apply reciprocal_fuel_enough; lia | | |].
  - exists (-1). lia.
  - exists 0. lia.
  - rewrite Hloop. exists a'. split; [assumption | reflexivity].
Qed.

Lemma reciprocal_mod_no_inverse : n > 0 -> 0 <= x0 < n -> Z.gcd x0 n <> 1 ->
  reciprocal_mod x0 n = Raise ValueError.
Proof.
  intros Hn Hx Hg. destruct (reciprocal_mod_run Hn Hx) as (a & _ & ->).
  rewrite Z.gcd_comm. destruct (Z.eqb_spec (Z.gcd x0 n) 1); [contradiction | reflexivity].
Qed.

Lemma reciprocal_mod_inverse : n > 0 -> 0 <= x0 < n -> Z.gcd x0 n = 1 ->
  exists y, reciprocal_mod x0 n = Ret y /\ 0 <= y < n /\ (x0 * y) mod n = 1 mod n.
Proof.
  intros Hn Hx Hg. destruct (reciprocal_mod_run Hn Hx) as (a & Ha & ->).
  rewrite (Z.gcd_comm n x0), Hg in *. cbn [Z.eqb Pos.eqb].
  exists (a mod n). split; [reflexivity | split].
  - apply Z.mod_pos_bound. lia.
  - rewrite Z.mul_mod_idemp_r by lia. rewrite Z.mul_comm.
    apply congruent_mod; assumption.
Qed.

(** An inverse modulo [n] is unique in [[0, n)]. *)
Lemma inverse_unique y y' : n > 0 ->
  0 <= y < n -> 0 <= y' < n ->
  (x0 * y) mod n = 1 mod n -> (x0 * y') mod n = 1 mod n -> y = y'.
Proof.
  intros Hn Hy Hy' H H'.
  apply mod_congruent in H, H'; try assumption.
  destruct H as [c Hc], H' as [c' Hc'].
  assert (congruent n y y') as Hyy.
  { exists (y' * c - y * c').
    transitivity (y' * (c * n) - y * (c' * n)); [|ring].
    rewrite <- Hc, <- Hc'. ring. }
  apply congruent_mod in Hyy; [|assumption].
  rewrite !Z.mod_small in Hyy by lia. assumption.
Qed.

End ReciprocalMod.

(** C8: for [0 <= x < mod], [mod > 0] and [gcd(x, mod) = 1],
    [reciprocal_mod(x, mod)] returns a [y] in [[0, mod)] with
    [x * y = 1] modulo [mod], and no other number of [[0, mod)] is an
    inverse of [x]. *)
Theorem reciprocal_mod_correct (x mod_ : Z) :
  0 <= x < mod_ -> mod_ > 0 -> Z.gcd x mod_ = 1 ->
  exists y,
    reciprocal_mod x mod_ = Ret y
    /\ 0 <= y < mod_
    /\ (x * y) mod mod_ = 1 mod mod_
    /\ forall y', 0 <= y' < mod_ -> (x * y') mod mod_ = 1 mod mod_ -> y' = y.
Proof.
  intros Hx Hm Hg.
  destruct (reciprocal_mod_inverse x mod_ Hm Hx Hg) as (y & Hret & Hy & Hinv).
  exists y. repeat split; try assumption; try lia.
  intros y' Hy' Hinv'. apply (inverse_unique x mod_ y' y); assumption.
Qed.

Lemma reciprocal_mod_correct_witness :
  exists y,
    reciprocal_mod 25214903917 (2 ^ 48) = Ret y
    /\ 0 <= y < 2 ^ 48
    /\ (25214903917 * y) mod 2 ^ 48 = 1 mod 2 ^ 48
    /\ forall y', 0 <= y' < 2 ^ 48 -> (25214903917 * y') mod 2 ^ 48 = 1 mod 2 ^ 48 -> y' = y.
Proof.
  apply (reciprocal_mod_correct 25214903917 (2 ^ 48)).
  - vm_compute. split; [discriminate | reflexivity].
  - reflexivity.
  - vm_compute. reflexivity.
Defined.

(** ** __init__ *)

(** Decides the comparisons of the assertions, one case per truth value. *)
Ltac decide_asserts :=
  repeat match goal with
  | |- context [?u >? ?v] => rewrite (Z.gtb_ltb u v)
  | |- context [?u >=? ?v] => rewrite (Z.geb_leb u v)
  | |- context [?u <? ?v] => destruct (Z.ltb_spec u v)
  | |- context [?u <=? ?v] => destruct (Z.leb_spec u v)
  end;
  cbn [andb Py.assert Py.bind].

Section Init.

Variables a b m seed : Z.

(** An engine whose parameters violate one of the four assertions of
    [__init__] is refused with [AssertionError]. *)
Lemma init_assert :
  a <= 0 \/ b < 0 \/ m <= 0 \/ seed < 0 \/ m <= seed ->
  __init__ a b m seed = Raise AssertionError.
Proof.
  intros H. unfold __init__. decide_asserts; try reflexivity; lia.
Qed.

(** Past them, what remains is the call of [reciprocal_mod]. *)
Lemma init_run :
  a > 0 -> b >= 0 -> m > 0 -> 0 <= seed < m ->
  __init__ a b m seed =
  (ainv <- reciprocal_mod a m ;; Ret (mkLcgRandom a ainv b m seed))%outcome.
Proof.
  intros Ha Hb Hm Hs. unfold __init__. decide_asserts; try lia. reflexivity.
Qed.

(** A multiplier that is not below the modulus fails the assertion of
    [reciprocal_mod]. *)
Lemma init_multiplier_too_large :
  a >= m -> b >= 0 -> m > 0 -> 0 <= seed < m ->
  __init__ a b m seed = Raise AssertionError.
Proof.
  intros Ha Hb Hm Hs. rewrite init_run by lia.
  rewrite reciprocal_mod_assert by lia. reflexivity.
Qed.

Lemma init_no_inverse :
  0 < a < m -> b >= 0 -> 0 <= seed < m -> Z.gcd a m <> 1 ->
  __init__ a b m seed = Raise ValueError.
Proof.
  intros Ha Hb Hs Hg. rewrite init_run by lia.
  rewrite reciprocal_mod_no_inverse by lia. reflexivity.
Qed.

Lemma init_ok :
  0 < a < m -> b >= 0 -> 0 <= seed < m -> Z.gcd a m = 1 ->
  exists ainv,
    __init__ a b m seed = Ret (mkLcgRandom a ainv b m seed)
    /\ 0 <= ainv < m /\ (a * ainv) mod m = 1.
Proof.
  intros Ha Hb Hs Hg. rewrite init_run by lia.
  destruct (reciprocal_mod_inverse a m) as (y & -> & Hy & Hinv); try lia.
  exists y. rewrite Z.mod_1_l in Hinv by lia. auto.
Qed.

(** All the ways the constructor ends, by its arguments. *)
Lemma init_cases :
  (a <= 0 \/ b < 0 \/ m <= 0 \/ seed < 0 \/ m <= seed \/ m <= a)
    /\ __init__ a b m seed = Raise AssertionError
  \/ (0 < a < m /\ 0 <= b /\ 0 <= seed < m /\ Z.gcd a m <> 1)
    /\ __init__ a b m seed = Raise ValueError
  \/ (0 < a < m /\ 0 <= b /\ 0 <= seed < m /\ Z.gcd a m = 1)
    /\ exists ainv,
         __init__ a b m seed = Ret (mkLcgRandom a ainv b m seed)
         /\ 0 <= ainv < m /\ (a * ainv) mod m = 1.
Proof.
  destruct (Z_le_gt_dec a 0); [left; split; [lia | apply init_assert; lia] |].
  destruct (Z_lt_ge_dec b 0); [left; split; [lia | apply init_assert; lia] |].
  destruct (Z_le_gt_dec m 0); [left; split; [lia | apply init_assert; lia] |].
  destruct (Z_lt_ge_dec seed 0); [left; split; [lia | apply init_assert; lia] |].
  destruct (Z_le_gt_dec m seed); [left; split; [lia | apply init_assert; lia] |].
  destruct (Z_le_gt_dec m a);
    [left; split; [lia | apply init_multiplier_too_large; lia] |].
  destruct (Z.eq_dec (Z.gcd a m) 1) as [Hg | Hg].
  - right; right. split; [lia | apply init_ok; lia].
  - right; left. split; [lia | apply init_no_inverse; lia].
Qed.

End Init.

Lemma init_valid a b m seed self : __init__ a b m seed = Ret self -> valid self.
Proof.
  intros H.
  destruct (init_cases a b m seed)
    as [[_ E] | [[_ E] | [Hargs (ainv & E & Hainv & Hinv)]]];
    rewrite E in H; try discriminate.
  injection H as <-. constructor; cbn; lia.
Qed.

Lemma init_args a b m seed self : __init__ a b m seed = Ret self ->
  self_a self = a /\ self_b self = b /\ self_m self = m /\ self_x self = seed.
Proof.
  intros H.
  destruct (init_cases a b m seed)
    as [[_ E] | [[_ E] | [Hargs (ainv & E & Hainv & Hinv)]]];
    rewrite E in H; try discriminate.
  injection H as <-. cbn. auto.
Qed.

(** Conversely a valid object is what the constructor builds from its
    parameters and its state. *)
Lemma valid_init self : valid self ->
  __init__ (self_a self) (self_b self) (self_m self) (self_x self) = Ret self.
Proof.
  intros [Ha Hb Hainv Hinv Hx].
  assert (Z.gcd (self_a self) (self_m self) = 1) as Hg.
  { apply Z.bezout_1_gcd.
    exists (self_ainv self), (- (self_a self * self_ainv self / self_m self)).
    pose proof (Z.div_mod (self_a self * self_ainv self) (self_m self) ltac:(lia)).
    lia. }
  destruct (init_ok (self_a self) (self_b self) (self_m self) (self_x self))
    as (ainv & -> & Hainv' & Hinv'); try lia.
  assert (ainv = self_ainv self) as ->.
  { apply (inverse_unique (self_a self) (self_m self)); try lia.
    all: rewrite Z.mod_1_l by lia; assumption. }
  destruct self; reflexivity.
Qed.

(** C7: the constructor raises [AssertionError], the file's error for an
    invalid parameter, and builds no engine whenever [a <= 0], or [b < 0],
    or [m <= 0], or the seed is outside [[0, m)]; in particular with the
    modulus as the seed, whatever [a], [b] and [m] are. *)
Theorem init_invalid_parameter (a b m seed : Z) :
  a <= 0 \/ b < 0 \/ m <= 0 \/ ~ (0 <= seed < m) ->
  __init__ a b m seed = Raise AssertionError
  /\ __init__ a b m m = Raise AssertionError.
Proof.
  intros H. split; apply init_assert; lia.
Qed.

Lemma init_invalid_parameter_witness :
  __init__ 25214903917 11 (2 ^ 48) (2 ^ 48) = Raise AssertionError
  /\ __init__ 25214903917 11 (2 ^ 48) (2 ^ 48) = Raise AssertionError.
Proof.
  apply (init_invalid_parameter 25214903917 11 (2 ^ 48) (2 ^ 48)).
  right; right; right. lia.
Defined.

(** C10: a multiplier [a >= m] is refused although [a > 0], [b >= 0],
    [m > 0], [0 <= seed < m] and [gcd(a, m) = 1] all hold: the four
    assertions of the constructor pass and the assertion [0 <= x < mod] of
    [reciprocal_mod] raises. *)
Theorem init_requires_multiplier_below_modulus (a b m seed : Z) :
  a >= m -> b >= 0 -> m > 0 -> 0 <= seed < m -> Z.gcd a m = 1 ->
  reciprocal_mod a m = Raise AssertionError
  /\ __init__ a b m seed = Raise AssertionError.
Proof.
  intros Ha Hb Hm Hs _. split.
  - apply reciprocal_mod_assert. lia.
  - apply init_multiplier_too_large; assumption.
Qed.

Lemma init_requires_multiplier_below_modulus_witness :
  reciprocal_mod 5 3 = Raise AssertionError
  /\ __init__ 5 0 3 0 = Raise AssertionError.
Proof.
  apply (init_requires_multiplier_below_modulus 5 0 3 0); try lia.
  reflexivity.
Defined.

(** C6, as the code has it: the constructor raises [ValueError], the
    file's error for a missing inverse, exactly when its parameters pass
    the assertions, [a < m] included, and [gcd(a, m) <> 1]; so it does for
    [a = 4], [b = 1], [m = 8], [seed = 0].  When an assertion fails, one of
    the constructor's four or the one of [reciprocal_mod], it raises
    [AssertionError] instead, whatever [gcd(a, m)] is, and in no other
    case; either way no engine is built. *)
Theorem init_no_inverse_iff (a b m seed : Z) :
  (__init__ a b m seed = Raise ValueError
   <-> 0 < a < m /\ 0 <= b /\ 0 <= seed < m /\ Z.gcd a m <> 1)
  /\ (__init__ a b m seed = Raise AssertionError
      <-> a <= 0 \/ b < 0 \/ m <= 0 \/ seed < 0 \/ m <= seed \/ m <= a)
  /\ __init__ 4 1 8 0 = Raise ValueError.
Proof.
  split; [|split; [|reflexivity]]; split.
  - intros H.
    destruct (init_cases a b m seed) as [[_ E] | [[Hargs _] | [_ (ainv & E & _)]]];
      [rewrite E in H; discriminate | assumption | rewrite E in H; discriminate].
  - intros (Ha & Hb & Hs & Hg). apply init_no_inverse; lia.
  - intros H.
    destruct (init_cases a b m seed) as [[Hargs _] | [[_ E] | [_ (ainv & E & _)]]];
      [assumption | rewrite E in H; discriminate | rewrite E in H; discriminate].
  - intros H.
    destruct (init_cases a b m seed) as [[_ E] | [[Hargs _] | [Hargs _]]];
      [assumption | lia | lia].
Qed.

(** C6 as it is written fails where another check comes first: 6 and 4 are
    not coprime, and the constructor raises [AssertionError] because
    [6 >= 4]. *)
Lemma init_no_inverse_counterexample :
  ~ (__init__ 6 0 4 0 = Raise ValueError <-> Z.gcd 6 4 <> 1).
Proof.
  intros [_ H]. assert (Z.gcd 6 4 <> 1) as Hg by (vm_compute; discriminate).
  specialize (H Hg). vm_compute in H. discriminate.
Qed.

(** ** next and previous *)

Lemma valid_with_x self v :
  valid self -> 0 <= v < self_m self -> valid (with_x self v).
Proof.
  intros [Ha Hb Hainv Hinv Hx] Hv. constructor; cbn; assumption.
Qed.

Lemma with_x_same self v : v = self_x self -> with_x self v = self.
Proof. intros ->. destruct self; reflexivity. Qed.

Lemma with_x_twice self v w : with_x (with_x self v) w = with_x self w.
Proof. reflexivity. Qed.

Lemma next_run self : self_m self > 0 ->
  next self =
  (Ret tt, with_x self ((self_x self * self_a self + self_b self) mod self_m self)).
Proof.
  intros Hm. unfold next, mbind, this, eval, set_x, Py.mod_.
  destruct (Z.eqb_spec (self_m self) 0); [lia | reflexivity].
Qed.

Lemma previous_run self : self_m self > 0 ->
  previous self =
  (Ret tt, with_x self (((self_x self - self_b self) * self_ainv self) mod self_m self)).
Proof.
  intros Hm. unfold previous, mbind, this, eval, set_x, Py.mod_.
  destruct (Z.eqb_spec (self_m self) 0); [lia | reflexivity].
Qed.

Lemma valid_inverse_congruent self :
  valid self -> congruent (self_m self) (self_a self * self_ainv self) 1.
Proof.
  intros [Ha Hb Hainv Hinv Hx].
  exists (self_a self * self_ainv self / self_m self).
  pose proof (Z.div_mod (self_a self * self_ainv self) (self_m self) ltac:(lia)).
  lia.
Qed.

Lemma congruent_small n k l : 0 <= l < n -> congruent n k l -> k mod n = l.
Proof.
  intros Hl H. rewrite (congruent_mod n k l) by (assumption || lia).
  apply Z.mod_small. assumption.
Qed.

Section NextPrevious.

Variable self : LcgRandom.
Hypothesis Hvalid : valid self.

Lemma previous_next_state :
  previous (after (next self)) = (Ret tt, self).
Proof.
  destruct Hvalid as [Ha Hb Hainv Hinv Hx].
  rewrite next_run by lia. unfold after; cbn [snd].
  rewrite previous_run by (cbn; lia). rewrite with_x_twice.
  cbn [self_x self_a self_b self_m self_ainv with_x].
  f_equal. apply with_x_same.
  apply congruent_small; [assumption|].
  destruct (valid_inverse_congruent self Hvalid) as [c Hc].
  rewrite (Z.mod_eq (self_x self * self_a self + self_b self)) by lia.
  exists (self_x self * c
          - (self_x self * self_a self + self_b self) / self_m self * self_ainv self).
  nia.
Qed.

Lemma next_previous_state :
  next (after (previous self)) = (Ret tt, self).
Proof.
  destruct Hvalid as [Ha Hb Hainv Hinv Hx].
  rewrite previous_run by lia. unfold after; cbn [snd].
  rewrite next_run by (cbn; lia). rewrite with_x_twice.
  cbn [self_x self_a self_b self_m self_ainv with_x].
  f_equal. apply with_x_same.
  apply congruent_small; [assumption|].
  destruct (valid_inverse_congruent self Hvalid) as [c Hc].
  rewrite (Z.mod_eq ((self_x self - self_b self) * self_ainv self)) by lia.
  exists ((self_x self - self_b self) * c
          - (self_x self - self_b self) * self_ainv self / self_m self * self_a self).
  nia.
Qed.

End NextPrevious.

(** ** Sequential calls in closed form *)

Lemma geometric_closed A k : (A - 1) * geometric A k = A ^ Z.of_nat k - 1.
Proof.
  induction k as [|k IH].
  - cbn. lia.
  - cbn [geometric]. rewrite Nat2Z.inj_succ, Z.pow_succ_r by lia. lia.
Qed.

Section Affine.

(** A method that maps the state [v] of [self0] to [(A * v + B) mod m]. *)
Variables (A B : Z) (self0 : LcgRandom) (c : method unit).
Hypothesis Hm : self_m self0 > 0.
Hypothesis Hc : forall v,
  c (with_x self0 v) = (Ret tt, with_x self0 ((A * v + B) mod self_m self0)).

Lemma times_affine k : forall v, 0 <= v < self_m self0 ->
  times k c (with_x self0 v) =
  (Ret tt,
   with_x self0 ((A ^ Z.of_nat k * v + B * geometric A k) mod self_m self0)).
Proof.
  induction k as [|k IH]; intros v Hv.
  - cbn [times geometric]. unfold mret. do 2 f_equal.
    rewrite Z.mod_small; lia.
  - cbn [times]. unfold mbind at 1. rewrite Hc.
    rewrite IH by (apply Z.mod_pos_bound; lia).
    do 2 f_equal. apply congruent_mod; [assumption|].
    cbn [geometric]. rewrite Nat2Z.inj_succ, Z.pow_succ_r by lia.
    rewrite (Z.mod_eq (A * v + B)) by lia.
    exists (- (A ^ Z.of_nat k) * ((A * v + B) / self_m self0)). ring.
Qed.

End Affine.

(** The sum that [skip] computes with a division in the integers is the
    geometric sum modulo [m]. *)
Lemma skip_sum A B N m x G :
  A - 1 > 0 -> m > 0 -> (A - 1) * G = A ^ N - 1 ->
  ((A ^ N mod ((A - 1) * m) - 1) / (A - 1) * B + A ^ N mod m * x) mod m
  = (A ^ N * x + B * G) mod m.
Proof.
  intros HA Hm HG. set (P := A ^ N) in *.
  assert ((A - 1) * m > 0) as Hma by nia.
  rewrite (Z.mod_eq P ((A - 1) * m)) by lia.
  set (Q := P / ((A - 1) * m)).
  replace (P - (A - 1) * m * Q - 1) with ((G - m * Q) * (A - 1)) by lia.
  rewrite Z.div_mul by lia.
  apply congruent_mod; [assumption|].
  rewrite (Z.mod_eq P m) by lia.
  exists (- Q * B - P / m * x). ring.
Qed.

(** ** skip *)

Lemma pow_run base e modulus : modulus <> 0 -> 0 <= e ->
  Py.pow base e modulus = Ret (base ^ e mod modulus).
Proof.
  intros Hm He. unfold Py.pow.
  destruct (Z.eqb_spec modulus 0); [contradiction|].
  destruct (Z.ltb_spec e 0); [lia | reflexivity].
Qed.

Lemma floordiv_run x y : y <> 0 -> Py.floordiv x y = Ret (x / y).
Proof.
  intros Hy. unfold Py.floordiv. destruct (Z.eqb_spec y 0); [contradiction | reflexivity].
Qed.

Lemma mod_run x y : y <> 0 -> Py.mod_ x y = Ret (x mod y).
Proof.
  intros Hy. unfold Py.mod_. destruct (Z.eqb_spec y 0); [contradiction | reflexivity].
Qed.

Section Skip.

Variable self : LcgRandom.
Hypothesis Hvalid : valid self.

(** With [a = 1] the inverse is 1 as well. *)
Lemma unit_multiplier_inverse : self_a self = 1 <-> self_ainv self = 1.
Proof.
  destruct Hvalid as [Ha Hb Hainv Hinv Hx]. split; intros E; rewrite E in Hinv.
  - rewrite Z.mul_1_l, Z.mod_small in Hinv; lia.
  - rewrite Z.mul_1_r, Z.mod_small in Hinv; lia.
Qed.

Lemma inverse_positive : 0 < self_ainv self.
Proof.
  destruct Hvalid as [Ha Hb Hainv Hinv Hx].
  destruct (Z.eq_dec (self_ainv self) 0) as [E|]; [|lia].
  rewrite E, Z.mul_0_r, Z.mod_0_l in Hinv; lia.
Qed.

(** Forward: [A = a], [B = b]. *)
Lemma skip_forward n : self_a self <> 1 -> 0 <= n ->
  skip n self =
  (Ret tt,
   with_x self
     ((self_a self ^ n * self_x self
       + self_b self * geometric (self_a self) (Z.to_nat n)) mod self_m self)).
Proof.
  intros Hne Hn. destruct Hvalid as [Ha Hb Hainv Hinv Hx].
  unfold skip, mbind, this, eval, set_x.
  destruct (Z.geb_spec n 0) as [_|]; [|lia].
  rewrite !pow_run, floordiv_run, mod_run by nia.
  do 2 f_equal. apply skip_sum; try lia.
  rewrite geometric_closed, Z2Nat.id by lia. reflexivity.
Qed.

(** Backward: [A = ainv], [B = - ainv * b], [-n] times. *)
Lemma skip_backward n : self_a self <> 1 -> n < 0 ->
  skip n self =
  (Ret tt,
   with_x self
     ((self_ainv self ^ (- n) * self_x self
       + (- self_ainv self * self_b self) * geometric (self_ainv self) (Z.to_nat (- n)))
      mod self_m self)).
Proof.
  intros Hne Hn. pose proof inverse_positive as Hpos.
  pose proof unit_multiplier_inverse as Hunit.
  destruct Hvalid as [Ha Hb Hainv Hinv Hx].
  unfold skip, mbind, this, eval, set_x.
  destruct (Z.geb_spec n 0) as [|_]; [lia|].
  rewrite !pow_run, floordiv_run, mod_run by nia.
  do 2 f_equal. apply skip_sum; try lia.
  rewrite geometric_closed, Z2Nat.id by lia. reflexivity.
Qed.

Lemma times_next k :
  times k next self =
  (Ret tt,
   with_x self
     ((self_a self ^ Z.of_nat k * self_x self
       + self_b self * geometric (self_a self) k) mod self_m self)).
Proof.
  destruct Hvalid as [Ha Hb Hainv Hinv Hx].
  rewrite <- (with_x_same self (self_x self) eq_refl) at 1.
  apply times_affine; try lia.
  intros v. rewrite next_run by (cbn; lia). rewrite with_x_twice.
  cbn [with_x self_x self_a self_b self_m self_ainv].
  rewrite (Z.mul_comm v). reflexivity.
Qed.

Lemma times_previous k :
  times k previous self =
  (Ret tt,
   with_x self
     ((self_ainv self ^ Z.of_nat k * self_x self
       + (- self_ainv self * self_b self) * geometric (self_ainv self) k)
      mod self_m self)).
Proof.
  destruct Hvalid as [Ha Hb Hainv Hinv Hx].
  rewrite <- (with_x_same self (self_x self) eq_refl) at 1.
  apply times_affine; try lia.
  intros v. rewrite previous_run by (cbn; lia). rewrite with_x_twice.
  cbn [with_x self_x self_a self_b self_m self_ainv].
  replace ((v - self_b self) * self_ainv self)
    with (self_ainv self * v + - self_ainv self * self_b self) by ring.
  reflexivity.
Qed.

(** Outside the degenerate multiplier [skip] returns and does what the
    sequential calls do. *)
Lemma skip_step_by_step n : self_a self <> 1 ->
  skip n self = step_by_step n self /\ result (skip n self) = Ret tt.
Proof.
  intros Hne. unfold step_by_step. destruct (Z.geb_spec n 0) as [Hn | Hn].
  - rewrite skip_forward, times_next, Z2Nat.id by lia. split; reflexivity.
  - rewrite skip_backward, times_previous, Z2Nat.id by lia. split; reflexivity.
Qed.

(** With [a = 1] the modulus [(a - 1) * m] given to [pow] is zero. *)
Lemma skip_unit_multiplier n : self_a self = 1 ->
  skip n self = (Raise ValueError, self).
Proof.
  intros E. pose proof (proj1 unit_multiplier_inverse E) as E'.
  unfold skip, mbind, this, eval.
  destruct (n >=? 0); rewrite ?E, ?E'; reflexivity.
Qed.

(** [skip] either leaves the object alone or assigns a state that is
    reduced modulo [m]. *)
Lemma skip_after n :
  after (skip n self) = self
  \/ exists v, after (skip n self) = with_x self (v mod self_m self).
Proof.
  destruct (Z.eq_dec (self_a self) 1) as [E | Hne].
  - left. rewrite skip_unit_multiplier by assumption. reflexivity.
  - right. destruct (Z_le_gt_dec 0 n).
    + rewrite skip_forward by lia. eexists. reflexivity.
    + rewrite skip_backward by lia. eexists. reflexivity.
Qed.

End Skip.

(** ** The state invariant *)

Lemma next_valid self : valid self -> valid (after (next self)).
Proof.
  intros H. pose proof (valid_a self H). rewrite next_run by lia.
  apply valid_with_x; [assumption | apply Z.mod_pos_bound; lia].
Qed.

Lemma previous_valid self : valid self -> valid (after (previous self)).
Proof.
  intros H. pose proof (valid_a self H). rewrite previous_run by lia.
  apply valid_with_x; [assumption | apply Z.mod_pos_bound; lia].
Qed.

Lemma skip_valid n self : valid self -> valid (after (skip n self)).
Proof.
  intros H. pose proof (valid_a self H).
  destruct (skip_after self H n) as [-> | [v ->]]; [assumption|].
  apply valid_with_x; [assumption | apply Z.mod_pos_bound; lia].
Qed.

Lemma randbit_after self : self_m self > 0 ->
  after (randbit self) = after (next self).
Proof.
  intros Hm. unfold randbit, mbind. rewrite next_run by assumption. reflexivity.
Qed.

Lemma randbit_valid self : valid self -> valid (after (randbit self)).
Proof.
  intros H. pose proof (valid_a self H).
  rewrite randbit_after by lia. apply next_valid. assumption.
Qed.

Lemma getrandbits_valid k self : valid self -> valid (after (getrandbits k self)).
Proof.
  unfold getrandbits. generalize (Py.range k) as l, 0 as acc.
  intros l. revert self. induction l as [|i l IH]; intros self acc H.
  - assumption.
  - cbn [for_in]. unfold mbind at 1 2.
    pose proof (randbit_valid self H) as H'.
    destruct (randbit self) as [[bit | ex] self']; cbn in H' |- *.
    + apply IH. assumption.
    + assumption.
Qed.

Lemma reachable_valid self0 self : valid self0 -> reachable self0 self -> valid self.
Proof.
  intros H0 Hreach.
  induction Hreach as [| self _ IH | self _ IH | n self _ IH | self _ IH | k self _ IH].
  - assumption.
  - apply next_valid, IH.
  - apply previous_valid, IH.
  - apply skip_valid, IH.
  - apply randbit_valid, IH.
  - apply getrandbits_valid, IH.
Qed.

(** C4: the state of a constructed engine is in [[0, m)], and so it is in
    every object reached from it by the methods; in particular after one
    more call of [next], of [previous] (whose difference [x - b] may be
    negative) and of [skip(n)], whatever the integer [n]. *)
Theorem state_in_range (a b m seed : Z) (self0 self : LcgRandom) :
  __init__ a b m seed = Ret self0 ->
  reachable self0 self ->
  0 <= self_x self0 < self_m self0
  /\ 0 <= self_x self < self_m self
  /\ 0 <= self_x (after (next self)) < self_m (after (next self))
  /\ 0 <= self_x (after (previous self)) < self_m (after (previous self))
  /\ forall n, 0 <= self_x (after (skip n self)) < self_m (after (skip n self)).
Proof.
  intros Hinit Hreach. pose proof (init_valid _ _ _ _ _ Hinit) as H0.
  pose proof (reachable_valid _ _ H0 Hreach) as H.
  split; [apply valid_x, H0|].
  split; [apply valid_x, H|].
  split; [apply valid_x, next_valid, H|].
  split; [apply valid_x, previous_valid, H|].
  intros n. apply valid_x, skip_valid, H.
Qed.

Lemma state_in_range_witness :
  let self0 := mkLcgRandom 5 13 3 16 7 in
  let self := after (previous (after (skip (-1000) self0))) in
  0 <= self_x self0 < self_m self0
  /\ 0 <= self_x self < self_m self
  /\ 0 <= self_x (after (next self)) < self_m (after (next self))
  /\ 0 <= self_x (after (previous self)) < self_m (after (previous self))
  /\ forall n, 0 <= self_x (after (skip n self)) < self_m (after (skip n self)).
Proof.
  intros self0 self. apply (state_in_range 5 3 16 7 self0 self).
  - reflexivity.
  - apply reach_previous, reach_skip, reach_constructed.
Defined.

(** ** next and previous undo each other *)

(** C5: on every object reached from a constructed engine, [next] then
    [previous] returns to the object it started from, and so does
    [previous] then [next]; neither call raises. *)
Theorem next_previous_inverse (a b m seed : Z) (self0 self : LcgRandom) :
  __init__ a b m seed = Ret self0 ->
  reachable self0 self ->
  (next ;; previous)%method self = (Ret tt, self)
  /\ (previous ;; next)%method self = (Ret tt, self).
Proof.
  intros Hinit Hreach. pose proof (init_valid _ _ _ _ _ Hinit) as H0.
  pose proof (reachable_valid _ _ H0 Hreach) as H.
  pose proof (valid_a self H) as Ha.
  split; unfold mbind.
  - pose proof (previous_next_state self H) as E.
    rewrite next_run in * by lia. exact E.
  - pose proof (next_previous_state self H) as E.
    rewrite previous_run in * by lia. exact E.
Qed.

Lemma next_previous_inverse_witness :
  let self := after (getrandbits 12 (mkLcgRandom 25214903917 246154705703781 11 (2 ^ 48) 12345)) in
  (next ;; previous)%method self = (Ret tt, self)
  /\ (previous ;; next)%method self = (Ret tt, self).
Proof.
  intros self.
  apply (next_previous_inverse 25214903917 11 (2 ^ 48) 12345
           (mkLcgRandom 25214903917 246154705703781 11 (2 ^ 48) 12345) self).
  - vm_compute. reflexivity.
  - apply reach_getrandbits, reach_constructed.
Defined.

(** ** skip against the sequential calls *)

(** X13: with a multiplier other than 1, [skip(n)] returns and leaves the
    engine exactly where [n] calls of [next], or [-n] calls of [previous],
    leave it, for every integer [n]. *)
Theorem skip_matches_sequential_calls (a b m seed : Z) (self0 self : LcgRandom) (n : Z) :
  __init__ a b m seed = Ret self0 ->
  reachable self0 self ->
  self_a self <> 1 ->
  skip n self = step_by_step n self /\ result (skip n self) = Ret tt.
Proof.
  intros Hinit Hreach Hne. apply skip_step_by_step; [|assumption].
  apply (reachable_valid self0); [apply (init_valid _ _ _ _ _ Hinit) | assumption].
Qed.

Lemma skip_matches_sequential_calls_witness :
  let self := mkLcgRandom 25214903917 246154705703781 11 (2 ^ 48) 0 in
  skip (-1000) self = step_by_step (-1000) self
  /\ result (skip (-1000) self) = Ret tt.
Proof.
  intros self.
  apply (skip_matches_sequential_calls 25214903917 11 (2 ^ 48) 0 self self).
  - vm_compute. reflexivity.
  - apply reach_constructed.
  - discriminate.
Defined.

(** C1 fails on the code where the multiplier is 1: for [a = 1], [b = 3],
    [m = 10], [seed = 4] the constructor succeeds, two calls of [previous]
    lead to the state 8, and [skip(-2)] raises [ValueError] with the state
    still 4. *)
Theorem skip_differs_from_sequential_calls :
  let self := mkLcgRandom 1 1 3 10 4 in
  __init__ 1 3 10 4 = Ret self
  /\ step_by_step (-2) self = (Ret tt, with_x self 8)
  /\ skip (-2) self = (Raise ValueError, self).
Proof.
  vm_compute. auto.
Qed.

(** C2 fails on the code: for [a = 1], [b = 7], [m = 100], [seed = 3] the
    constructor succeeds, ten calls of [next] lead to the state 73, and
    [skip(10)] raises [ValueError] with the state still 3. *)
Theorem skip_degenerate_multiplier :
  let self := mkLcgRandom 1 1 7 100 3 in
  __init__ 1 7 100 3 = Ret self
  /\ step_by_step 10 self = (Ret tt, with_x self 73)
  /\ skip 10 self = (Raise ValueError, self).
Proof.
  vm_compute. auto.
Qed.

(** ** getrandbits *)

(** C3, as the code has it: [getrandbits(k)] with [k < 0] raises nothing;
    its loop runs over an empty range, it returns 0 and leaves the object
    as it was. *)
Theorem getrandbits_negative (self : LcgRandom) (k : Z) :
  k < 0 -> getrandbits k self = (Ret 0, self).
Proof.
  intros Hk. unfold getrandbits, Py.range.
  destruct k; try lia. reflexivity.
Qed.

Lemma getrandbits_negative_witness :
  getrandbits (-1) (mkLcgRandom 5 13 3 16 7) = (Ret 0, mkLcgRandom 5 13 3 16 7).
Proof.
  apply (getrandbits_negative (mkLcgRandom 5 13 3 16 7) (-1)). lia.
Defined.

(** C3 as it is written fails: on the engine built from [a = 5], [b = 3],
    [m = 16], [seed = 7], [getrandbits(-1)] raises no exception. *)
Lemma getrandbits_negative_counterexample :
  __init__ 5 3 16 7 = Ret (mkLcgRandom 5 13 3 16 7)
  /\ ~ (exists ex, result (getrandbits (-1) (mkLcgRandom 5 13 3 16 7)) = Raise ex).
Proof.
  split; [reflexivity|]. intros [ex H]. vm_compute in H. discriminate.
Qed.

(** C9: [getrandbits(0)] returns 0 and leaves the object, hence what
    [get_state] returns, unchanged: its loop body, the only place where
    [randbit] and so [next] are called, is not run. *)
Theorem getrandbits_zero (self : LcgRandom) :
  getrandbits 0 self = (Ret 0, self)
  /\ get_state (after (getrandbits 0 self)) = get_state self.
Proof.
  split; reflexivity.
Qed.

(** * Further properties *)

(** ** What getrandbits draws *)

(** Shifting in a bit is doubling and adding it. *)
Lemma shift_or_bit acc bit :
  0 <= acc -> Z.lor (Z.shiftl acc 1) (Z.b2z bit) = 2 * acc + Z.b2z bit.
Proof.
  intros H. destruct acc as [|p|p]; [| |lia]; destruct bit; reflexivity.
Qed.

Lemma randbit_run self : self_m self > 0 ->
  exists bit, randbit self = (Ret bit, after (next self)).
Proof.
  intros Hm. unfold randbit, mbind, this, mret. rewrite next_run by assumption.
  eexists. reflexivity.
Qed.

Lemma times_unfold k self : self_m self > 0 ->
  times (S k) next self = times k next (after (next self)).
Proof.
  intros Hm. cbn [times]. unfold mbind. rewrite next_run by assumption. reflexivity.
Qed.

(** The loop of [getrandbits] over a list of length [len], started with
    [acc] in [result]: it returns, the bits it draws form a number [r] below
    [2^len] that does not depend on [acc], and the object is the one [len]
    calls of [next] lead to. *)
Lemma for_in_draw l : forall self, valid self ->
  exists r,
    0 <= r < 2 ^ Z.of_nat (length l)
    /\ forall acc, 0 <= acc ->
         for_in l
           (fun _ result =>
              (bit <- randbit ;; mret (Z.lor (Z.shiftl result 1) (Z.b2z bit)))%method)
           acc self
         = (Ret (acc * 2 ^ Z.of_nat (length l) + r),
            after (times (length l) next self)).
Proof.
  induction l as [|i l IH]; intros self H.
  - exists 0. split; [cbn; lia|]. intros acc Hacc. cbn. unfold mret.
    do 2 f_equal. lia.
  - pose proof (valid_a self H) as Ha.
    destruct (randbit_run self ltac:(lia)) as [bit Hbit].
    destruct (IH (after (next self)) (next_valid self H)) as (r & Hr & Hloop).
    exists (Z.b2z bit * 2 ^ Z.of_nat (length l) + r).
    cbn [length]. rewrite Nat2Z.inj_succ, Z.pow_succ_r by lia.
    split; [destruct bit; cbn [Z.b2z]; lia|].
    intros acc Hacc. cbn [for_in]. unfold mbind at 1 2. rewrite Hbit.
    unfold mret at 1. rewrite shift_or_bit by assumption.
    rewrite Hloop by (destruct bit; cbn [Z.b2z]; lia).
    rewrite times_unfold by lia. do 2 f_equal. ring.
Qed.

Lemma range_length k : length (Py.range k) = Z.to_nat k.
Proof.
  unfold Py.range. rewrite length_map, length_seq. reflexivity.
Qed.

(** X1: on a constructed engine [getrandbits(k)] with [k >= 0] does not
    raise and returns an integer of [k] bits, that is one in [[0, 2^k)]. *)
Theorem getrandbits_range (a b m seed : Z) (self : LcgRandom) (k : Z) :
  __init__ a b m seed = Ret self ->
  0 <= k ->
  exists v, result (getrandbits k self) = Ret v /\ 0 <= v < 2 ^ k.
Proof.
  intros Hinit Hk. pose proof (init_valid _ _ _ _ _ Hinit) as H.
  destruct (for_in_draw (Py.range k) self H) as (r & Hr & Hloop).
  unfold getrandbits. rewrite Hloop by lia.
  rewrite range_length, Z2Nat.id in * by assumption.
  exists r. split; [cbn; f_equal; lia | assumption].
Qed.

Lemma getrandbits_range_witness :
  exists v,
    result (getrandbits 48 (mkLcgRandom 25214903917 246154705703781 11 (2 ^ 48) 12345)) = Ret v
    /\ 0 <= v < 2 ^ 48.
Proof.
  apply (getrandbits_range 25214903917 11 (2 ^ 48) 12345).
  - vm_compute. reflexivity.
  - lia.
Defined.

(** X2: [getrandbits(k)] moves a constructed engine exactly as [k] calls of
    [next] do (none when [k <= 0]), and so as [skip(k)] does when [k >= 0]
    and the multiplier is not 1. *)
Theorem getrandbits_advances (a b m seed : Z) (self : LcgRandom) (k : Z) :
  __init__ a b m seed = Ret self ->
  after (getrandbits k self) = after (times (Z.to_nat k) next self)
  /\ (0 <= k -> a <> 1 -> after (getrandbits k self) = after (skip k self)).
Proof.
  intros Hinit. pose proof (init_valid _ _ _ _ _ Hinit) as H.
  assert (after (getrandbits k self) = after (times (Z.to_nat k) next self)) as E.
  { destruct (for_in_draw (Py.range k) self H) as (r & Hr & Hloop).
    unfold getrandbits. rewrite Hloop by lia. rewrite range_length. reflexivity. }
  split; [assumption|]. intros Hk Hne. rewrite E.
  destruct (init_args _ _ _ _ _ Hinit) as (Ea & _).
  destruct (skip_step_by_step self H k ltac:(lia)) as [-> _].
  unfold step_by_step. destruct (Z.geb_spec k 0); [reflexivity | lia].
Qed.

Lemma getrandbits_advances_witness :
  let self := mkLcgRandom 5 13 3 16 7 in
  after (getrandbits 20 self) = after (times (Z.to_nat 20) next self)
  /\ (0 <= 20 -> 5 <> 1 -> after (getrandbits 20 self) = after (skip 20 self)).
Proof.
  intros self. apply (getrandbits_advances 5 3 16 7 self 20). reflexivity.
Defined.

Lemma for_in_app body l1 : forall l2 acc self,
  for_in (l1 ++ l2) body acc self
  = (r <- for_in l1 body acc ;; for_in l2 body r)%method self.
Proof.
  induction l1 as [|i l1 IH]; intros l2 acc self.
  - reflexivity.
  - cbn [app for_in]. unfold mbind in *.
    destruct (body i acc self) as [[v | ex] self']; [apply IH | reflexivity].
Qed.

(** A body that does not read the loop variable only counts the items. *)
Lemma for_in_index_free (f : Z -> method Z) l : forall l' acc self,
  length l = length l' ->
  for_in l (fun _ => f) acc self = for_in l' (fun _ => f) acc self.
Proof.
  induction l as [|i l IH]; intros [|i' l'] acc self Hlen; try discriminate.
  - reflexivity.
  - cbn [for_in]. unfold mbind.
    destruct (f acc self) as [[v | ex] self']; [|reflexivity].
    apply IH. injection Hlen as Hlen. assumption.
Qed.

(** X3: the bits come most significant first, so that drawing [j] bits and
    then [k] bits and putting the first draw above the second is drawing
    [j + k] bits at once: same value, same object afterwards. *)
Theorem getrandbits_concat (a b m seed : Z) (self : LcgRandom) (j k : Z) :
  __init__ a b m seed = Ret self ->
  0 <= j -> 0 <= k ->
  (hi <- getrandbits j ;; lo <- getrandbits k ;; mret (hi * 2 ^ k + lo))%method self
  = getrandbits (j + k) self.
Proof.
  intros Hinit Hj Hk. pose proof (init_valid _ _ _ _ _ Hinit) as H.
  pose proof (getrandbits_valid j self H) as H1.
  destruct (for_in_draw (Py.range j) self H) as (r1 & Hr1 & Hloop1).
  assert (getrandbits j self
          = (Ret (0 * 2 ^ Z.of_nat (length (Py.range j)) + r1),
             after (getrandbits j self))) as E1.
  { unfold getrandbits at 1 2. rewrite Hloop1 by lia. reflexivity. }
  destruct (for_in_draw (Py.range k) (after (getrandbits j self)) H1)
    as (r2 & Hr2 & Hloop2).
  unfold getrandbits at 3.
  rewrite (for_in_index_free _ (Py.range (j + k)) (Py.range j ++ Py.range k))
    by (rewrite length_app, !range_length; lia).
  rewrite for_in_app. unfold mbind at 1 2 3. fold (getrandbits j). rewrite E1.
  unfold getrandbits at 1. rewrite !Hloop2 by lia.
  unfold mret. rewrite !range_length, !Z2Nat.id by assumption.
  f_equal.
Qed.

Lemma getrandbits_concat_witness :
  let self := mkLcgRandom 5 13 3 16 7 in
  (hi <- getrandbits 3 ;; lo <- getrandbits 4 ;; mret (hi * 2 ^ 4 + lo))%method self
  = getrandbits (3 + 4) self.
Proof.
  intros self. apply (getrandbits_concat 5 3 16 7 self 3 4); [reflexivity | lia | lia].
Defined.

(** ** The parameters are never touched *)

Lemma getrandbits_after k self : valid self ->
  after (getrandbits k self) = after (times (Z.to_nat k) next self).
Proof.
  intros H. destruct (for_in_draw (Py.range k) self H) as (r & Hr & Hloop).
  unfold getrandbits. rewrite Hloop by lia. rewrite range_length. reflexivity.
Qed.

Lemma reachable_frame self0 self :
  valid self0 -> reachable self0 self -> exists v, self = with_x self0 v.
Proof.
  intros H0 Hreach.
  induction Hreach as [| self Hr IH | self Hr IH | n self Hr IH | self Hr IH | k self Hr IH].
  - exists (self_x self0). symmetry. apply with_x_same. reflexivity.
  - pose proof (valid_a self (reachable_valid _ _ H0 Hr)).
    destruct IH as [v ->]. rewrite next_run by lia. eexists. apply with_x_twice.
  - pose proof (valid_a self (reachable_valid _ _ H0 Hr)).
    destruct IH as [v ->]. rewrite previous_run by lia. eexists. apply with_x_twice.
  - destruct (skip_after self (reachable_valid _ _ H0 Hr) n) as [-> | [w ->]];
      [assumption|].
    destruct IH as [v ->]. eexists. apply with_x_twice.
  - pose proof (valid_a self (reachable_valid _ _ H0 Hr)).
    rewrite randbit_after, next_run by lia.
    destruct IH as [v ->]. eexists. apply with_x_twice.
  - pose proof (reachable_valid _ _ H0 Hr) as H.
    rewrite getrandbits_after, times_next by assumption.
    destruct IH as [v ->]. eexists. apply with_x_twice.
Qed.

(** X4: the methods only ever assign [x].  Whatever calls of [next],
    [previous], [skip], [randbit] and [getrandbits] were made on a
    constructed engine, the object is the one the constructor builds from
    the same [a], [b], [m] with the current state as the seed: [a], [b],
    [m] and [ainv] are those of the construction. *)
Theorem reachable_constructed (a b m seed : Z) (self0 self : LcgRandom) :
  __init__ a b m seed = Ret self0 ->
  reachable self0 self ->
  __init__ a b m (self_x self) = Ret self
  /\ self_ainv self = self_ainv self0.
Proof.
  intros Hinit Hreach. pose proof (init_valid _ _ _ _ _ Hinit) as H0.
  destruct (init_args _ _ _ _ _ Hinit) as (Ea & Eb & Em & _).
  destruct (reachable_frame _ _ H0 Hreach) as [v E].
  pose proof (valid_init self (reachable_valid _ _ H0 Hreach)) as Hself.
  rewrite E in Hself at 1 2 3. cbn [with_x self_a self_b self_m] in Hself.
  rewrite Ea, Eb, Em in Hself. split; [assumption|]. rewrite E. reflexivity.
Qed.

Lemma reachable_constructed_witness :
  let self0 := mkLcgRandom 5 13 3 16 7 in
  let self := after (getrandbits 9 (after (skip (-5) (after (randbit self0))))) in
  __init__ 5 3 16 (self_x self) = Ret self
  /\ self_ainv self = self_ainv self0.
Proof.
  intros self0 self. apply (reachable_constructed 5 3 16 7 self0 self).
  - reflexivity.
  - apply reach_getrandbits, reach_skip, reach_randbit, reach_constructed.
Defined.

(** ** Sequential calls compose *)

Lemma outcome_pair {A : Type} (p q : outcome A * LcgRandom) :
  result p = result q -> after p = after q -> p = q.
Proof.
  destruct p, q. unfold result, after. cbn. intros -> ->. reflexivity.
Qed.

(** One more call at the end instead of at the beginning. *)
Lemma times_snoc c k : forall self,
  times (S k) c self = (times k c ;; c)%method self.
Proof.
  induction k as [|k IH]; intros self.
  - cbn [times]. unfold mbind, mret. destruct (c self) as [[[] | ex] self']; reflexivity.
  - change (times (S (S k)) c self) with ((c ;; times (S k) c)%method self).
    change (times (S k) c) with (c ;; times k c)%method at 2.
    unfold mbind. destruct (c self) as [[[] | ex] self']; [|reflexivity].
    rewrite IH. reflexivity.
Qed.

Lemma step_nonneg k : step_by_step (Z.of_nat k) = times k next.
Proof.
  unfold step_by_step. destruct (Z.geb_spec (Z.of_nat k) 0); [|lia].
  rewrite Nat2Z.id. reflexivity.
Qed.

Lemma step_nonpos k : step_by_step (- Z.of_nat k) = times k previous.
Proof.
  unfold step_by_step. destruct (Z.geb_spec (- Z.of_nat k) 0).
  - assert (k = 0%nat) as -> by lia. reflexivity.
  - rewrite Z.opp_involutive, Nat2Z.id. reflexivity.
Qed.

Section Steps.

Variable self : LcgRandom.
Hypothesis Hvalid : valid self.

Lemma times_next_valid k :
  result (times k next self) = Ret tt /\ valid (after (times k next self)).
Proof.
  pose proof (valid_a self Hvalid). rewrite times_next by assumption.
  split; [reflexivity|]. apply valid_with_x; [assumption | apply Z.mod_pos_bound; lia].
Qed.

Lemma times_previous_valid k :
  result (times k previous self) = Ret tt /\ valid (after (times k previous self)).
Proof.
  pose proof (valid_a self Hvalid). rewrite times_previous by assumption.
  split; [reflexivity|]. apply valid_with_x; [assumption | apply Z.mod_pos_bound; lia].
Qed.

Lemma step_valid n :
  result (step_by_step n self) = Ret tt /\ valid (after (step_by_step n self)).
Proof.
  unfold step_by_step. destruct (n >=? 0);
    [apply times_next_valid | apply times_previous_valid].
Qed.

Lemma times_next_snoc k :
  after (times (S k) next self) = after (next (after (times k next self))).
Proof.
  rewrite times_snoc. unfold mbind.
  destruct (times_next_valid k) as [Hres _].
  destruct (times k next self) as [[[] | ex] self']; [reflexivity | discriminate].
Qed.

Lemma times_previous_snoc k :
  after (times (S k) previous self) = after (previous (after (times k previous self))).
Proof.
  rewrite times_snoc. unfold mbind.
  destruct (times_previous_valid k) as [Hres _].
  destruct (times k previous self) as [[[] | ex] self']; [reflexivity | discriminate].
Qed.

Lemma step_succ n :
  after (step_by_step (n + 1) self) = after (next (after (step_by_step n self))).
Proof.
  destruct (Z_le_gt_dec 0 n) as [Hn | Hn].
  - replace n with (Z.of_nat (Z.to_nat n)) by lia.
    replace (Z.of_nat (Z.to_nat n) + 1) with (Z.of_nat (S (Z.to_nat n))) by lia.
    rewrite !step_nonneg. apply times_next_snoc.
  - replace n with (- Z.of_nat (S (Z.to_nat (- n - 1)))) by lia.
    replace (- Z.of_nat (S (Z.to_nat (- n - 1))) + 1)
      with (- Z.of_nat (Z.to_nat (- n - 1))) by lia.
    rewrite !step_nonpos, times_previous_snoc.
    destruct (times_previous_valid (Z.to_nat (- n - 1))) as [_ Hv].
    rewrite (next_previous_state _ Hv). reflexivity.
Qed.

Lemma step_pred n :
  after (step_by_step (n - 1) self) = after (previous (after (step_by_step n self))).
Proof.
  replace n with (n - 1 + 1) at 2 by lia. rewrite step_succ.
  destruct (step_valid (n - 1)) as [_ Hv].
  rewrite (previous_next_state _ Hv). reflexivity.
Qed.

End Steps.

Lemma step_add_forward self n k : valid self ->
  after (step_by_step (Z.of_nat k) (after (step_by_step n self)))
  = after (step_by_step (n + Z.of_nat k) self).
Proof.
  intros H. destruct (step_valid self H n) as [_ Hn].
  induction k as [|k IH].
  - rewrite Z.add_0_r. reflexivity.
  - rewrite step_nonneg in *. rewrite times_next_snoc, IH by assumption.
    replace (n + Z.of_nat (S k)) with (n + Z.of_nat k + 1) by lia.
    rewrite step_succ by assumption. reflexivity.
Qed.

Lemma step_add_backward self n k : valid self ->
  after (step_by_step (- Z.of_nat k) (after (step_by_step n self)))
  = after (step_by_step (n - Z.of_nat k) self).
Proof.
  intros H. destruct (step_valid self H n) as [_ Hn].
  induction k as [|k IH].
  - rewrite Z.sub_0_r. reflexivity.
  - rewrite step_nonpos in *. rewrite times_previous_snoc, IH by assumption.
    replace (n - Z.of_nat (S k)) with (n - Z.of_nat k - 1) by lia.
    rewrite step_pred by assumption. reflexivity.
Qed.

Lemma step_add self n k : valid self ->
  (step_by_step n ;; step_by_step k)%method self = step_by_step (n + k) self.
Proof.
  intros H. destruct (step_valid self H n) as [Hres Hn].
  assert (step_by_step n self = (Ret tt, after (step_by_step n self))) as E
    by (apply outcome_pair; [assumption | reflexivity]).
  unfold mbind. rewrite E. cbv beta iota.
  apply outcome_pair.
  - destruct (step_valid _ Hn k) as [-> _], (step_valid self H (n + k)) as [-> _].
    reflexivity.
  - destruct (Z_le_gt_dec 0 k).
    + replace k with (Z.of_nat (Z.to_nat k)) by lia. apply step_add_forward, H.
    + replace k with (- Z.of_nat (Z.to_nat (- k))) by lia.
      rewrite step_add_backward by assumption. reflexivity.
Qed.

(** X5: sequential calls add up.  [n] calls of [next] (of [previous] when
    [n < 0]) followed by [k] more, forward or backward, lead a constructed
    engine where [n + k] calls lead it, and nothing raises; in particular
    as many calls back as forth return to the start. *)
Theorem sequential_calls_compose (a b m seed : Z) (self : LcgRandom) (n k : Z) :
  __init__ a b m seed = Ret self ->
  (step_by_step n ;; step_by_step k)%method self = step_by_step (n + k) self
  /\ (step_by_step n ;; step_by_step (- n))%method self = (Ret tt, self).
Proof.
  intros Hinit. pose proof (init_valid _ _ _ _ _ Hinit) as H.
  split; [apply step_add, H|].
  rewrite step_add, Z.add_opp_diag_r by assumption. reflexivity.
Qed.

Lemma sequential_calls_compose_witness :
  let self := mkLcgRandom 1 1 7 100 3 in
  (step_by_step 40 ;; step_by_step (-75))%method self = step_by_step (40 + -75) self
  /\ (step_by_step 40 ;; step_by_step (- 40))%method self = (Ret tt, self).
Proof.
  intros self. apply (sequential_calls_compose 1 7 100 3 self 40 (-75)). reflexivity.
Defined.

(** X6: the state [k] calls of [next] lead a constructed engine to is
    [(a^k * x + b * (1 + a + ... + a^(k-1))) mod m], and no call raises;
    the sum is [(a^k - 1) / (a - 1)] when [a <> 1]. *)
Theorem next_closed_form (a b m seed : Z) (self : LcgRandom) (k : nat) :
  __init__ a b m seed = Ret self ->
  times k next self
  = (Ret tt, with_x self ((a ^ Z.of_nat k * seed + b * geometric a k) mod m))
  /\ (a - 1) * geometric a k = a ^ Z.of_nat k - 1.
Proof.
  intros Hinit. pose proof (init_valid _ _ _ _ _ Hinit) as H.
  destruct (init_args _ _ _ _ _ Hinit) as (Ea & Eb & Em & Ex).
  split; [|apply geometric_closed].
  rewrite times_next by assumption. rewrite Ea, Eb, Em, Ex. reflexivity.
Qed.

Lemma next_closed_form_witness :
  let self := mkLcgRandom 1 1 7 100 3 in
  times 10 next self
  = (Ret tt, with_x self ((1 ^ Z.of_nat 10 * 3 + 7 * geometric 1 10) mod 100))
  /\ (1 - 1) * geometric 1 10 = 1 ^ Z.of_nat 10 - 1.
Proof.
  intros self. apply (next_closed_form 1 7 100 3 self 10). reflexivity.
Defined.

(** ** skip composes, and when it raises *)

Lemma skip_keeps_multiplier self n : valid self ->
  self_a (after (skip n self)) = self_a self.
Proof.
  intros H. destruct (skip_after self H n) as [-> | [v ->]]; reflexivity.
Qed.

Lemma skip_add self n k : valid self -> self_a self <> 1 ->
  (skip n ;; skip k)%method self = skip (n + k) self.
Proof.
  intros H Hne.
  destruct (skip_step_by_step self H n Hne) as [En _].
  destruct (skip_step_by_step self H (n + k) Hne) as [-> _].
  rewrite <- (step_add self n k H). unfold mbind. rewrite <- En.
  destruct (skip n self) as [[[] | ex] self'] eqn:E; [|reflexivity].
  pose proof (skip_valid n self H) as Hv.
  pose proof (skip_keeps_multiplier self n H) as Hm.
  rewrite E in Hv, Hm. cbn in Hv, Hm.
  apply skip_step_by_step; [assumption | congruence].
Qed.

(** X7: with a multiplier other than 1, [skip(n)] followed by [skip(k)] is
    [skip(n + k)] for all integers [n] and [k]: same outcome, same object.
    So [skip(0)] changes nothing and [skip(-n)] undoes [skip(n)]. *)
Theorem skip_composes (a b m seed : Z) (self : LcgRandom) (n k : Z) :
  __init__ a b m seed = Ret self ->
  a <> 1 ->
  (skip n ;; skip k)%method self = skip (n + k) self
  /\ skip 0 self = (Ret tt, self)
  /\ (skip n ;; skip (- n))%method self = (Ret tt, self).
Proof.
  intros Hinit Hne. pose proof (init_valid _ _ _ _ _ Hinit) as H.
  destruct (init_args _ _ _ _ _ Hinit) as (Ea & _).
  assert (skip 0 self = (Ret tt, self)) as E0
    by (apply skip_step_by_step; [assumption | congruence]).
  split; [apply skip_add; [assumption | congruence]|].
  split; [assumption|].
  rewrite skip_add, Z.add_opp_diag_r by (assumption || congruence). assumption.
Qed.

Lemma skip_composes_witness :
  let self := mkLcgRandom 25214903917 246154705703781 11 (2 ^ 48) 12345 in
  (skip 700 ;; skip (-1200))%method self = skip (700 + -1200) self
  /\ skip 0 self = (Ret tt, self)
  /\ (skip 700 ;; skip (- 700))%method self = (Ret tt, self).
Proof.
  intros self. apply (skip_composes 25214903917 11 (2 ^ 48) 12345 self 700 (-1200)).
  - vm_compute. reflexivity.
  - discriminate.
Defined.

(** X8: on a constructed engine [skip(n)] raises exactly when the
    multiplier is 1, whatever [n] is, [n = 0] included: it is then a
    [ValueError] and the object is left as it was; otherwise it returns. *)
Theorem skip_raises_iff_unit_multiplier (a b m seed : Z) (self : LcgRandom) (n : Z) :
  __init__ a b m seed = Ret self ->
  (a = 1 -> skip n self = (Raise ValueError, self))
  /\ (a <> 1 -> result (skip n self) = Ret tt).
Proof.
  intros Hinit. pose proof (init_valid _ _ _ _ _ Hinit) as H.
  destruct (init_args _ _ _ _ _ Hinit) as (Ea & _).
  split; intros Ha.
  - apply skip_unit_multiplier; [assumption | congruence].
  - apply skip_step_by_step; [assumption | congruence].
Qed.

Lemma skip_raises_iff_unit_multiplier_witness :
  let self := mkLcgRandom 1 1 0 2 1 in
  (1 = 1 -> skip 0 self = (Raise ValueError, self))
  /\ (1 <> 1 -> result (skip 0 self) = Ret tt).
Proof.
  intros self. apply (skip_raises_iff_unit_multiplier 1 0 2 1 self 0). reflexivity.
Defined.

(** ** reciprocal_mod and the constructor, all cases *)

(** X9: [reciprocal_mod(x, mod)] raises [AssertionError] exactly when its
    assertion [mod > 0 and 0 <= x < mod] fails, and [ValueError] exactly
    when the assertion holds and [gcd(x, mod) <> 1]. *)
Theorem reciprocal_mod_errors (x mod_ : Z) :
  (reciprocal_mod x mod_ = Raise AssertionError <-> ~ (mod_ > 0 /\ 0 <= x < mod_))
  /\ (reciprocal_mod x mod_ = Raise ValueError
      <-> mod_ > 0 /\ 0 <= x < mod_ /\ Z.gcd x mod_ <> 1).
Proof.
  destruct (Z_le_gt_dec mod_ 0) as [Hm | Hm];
    [|destruct (Z_lt_ge_dec x 0) as [Hx | Hx];
      [|destruct (Z_le_gt_dec mod_ x) as [Hx' | Hx']]].
  1-3: rewrite reciprocal_mod_assert by lia;
    (split; [split; [lia | reflexivity] | split; [discriminate | lia]]).
  destruct (Z.eq_dec (Z.gcd x mod_) 1) as [Hg | Hg].
  - destruct (reciprocal_mod_inverse x mod_) as (y & -> & _); try lia.
    split; [split; [discriminate | lia] | split; [discriminate | lia]].
  - rewrite reciprocal_mod_no_inverse by lia.
    split; [split; [discriminate | lia] | split; [lia | reflexivity]].
Qed.

(** The guard [y != 0] of the loop comes before its divisions: with [//]
    and [%] as the operations that raise, the loop returns what
    [reciprocal_loop] computes, on every input. *)
Lemma reciprocal_loop_raising_run fuel : forall x y a b,
  reciprocal_loop_raising fuel x y a b = Ret (reciprocal_loop fuel x y a b).
Proof.
  induction fuel as [|fuel IH]; intros x y a b.
  - reflexivity.
  - cbn [reciprocal_loop_raising reciprocal_loop].
    destruct (Z.eqb_spec y 0) as [Hy | Hy]; [reflexivity|].
    rewrite floordiv_run, mod_run by assumption. cbn [Py.bind]. apply IH.
Qed.

(** X14: no division of [reciprocal_mod] meets a zero divisor.  With
    [x // y], [x % y] and [a % mod] as the operations that raise
    [ZeroDivisionError] on a zero divisor, the function ends, on every
    input, exactly as it does with the total operations the other
    statements are about, and so never with [ZeroDivisionError]: the loop
    divides only after its guard [y != 0], and the last reduction comes
    after the assertion [mod > 0]. *)
Theorem reciprocal_mod_divisions_safe (x mod_ : Z) :
  reciprocal_mod_raising x mod_ = reciprocal_mod x mod_
  /\ reciprocal_mod_raising x mod_ <> Raise ZeroDivisionError.
Proof.
  assert (reciprocal_mod_raising x mod_ = reciprocal_mod x mod_) as E.
  { unfold reciprocal_mod_raising, reciprocal_mod.
    rewrite reciprocal_loop_raising_run.
    destruct (Z.gtb_spec mod_ 0) as [Hm | Hm]; [|reflexivity].
    destruct ((0 <=? x) && (x <? mod_)); [|reflexivity].
    cbn [andb Py.assert Py.bind].
    destruct (reciprocal_loop (reciprocal_fuel x mod_) mod_ x 0 1) as [[[x' y'] a'] b'].
    destruct (x' =? 1); [|reflexivity].
    apply mod_run. lia. }
  split; [assumption|]. rewrite E.
  destruct (Z_le_gt_dec mod_ 0) as [Hm | Hm];
    [|destruct (Z_lt_ge_dec x 0) as [Hx | Hx];
      [|destruct (Z_le_gt_dec mod_ x) as [Hx' | Hx']]].
  1-3: rewrite reciprocal_mod_assert by lia; discriminate.
  destruct (Z.eq_dec (Z.gcd x mod_) 1) as [Hg | Hg].
  - destruct (reciprocal_mod_inverse x mod_) as (y & -> & _); try lia. discriminate.
  - rewrite reciprocal_mod_no_inverse by lia. discriminate.
Qed.

(** X10: the reciprocal of the reciprocal is the number itself: for
    [0 <= x < mod] coprime to [mod], [reciprocal_mod(x, mod)] returns a [y]
    on which [reciprocal_mod(y, mod)] returns [x]. *)
Theorem reciprocal_mod_involutive (x mod_ : Z) :
  0 <= x < mod_ -> Z.gcd x mod_ = 1 ->
  exists y, reciprocal_mod x mod_ = Ret y /\ reciprocal_mod y mod_ = Ret x.
Proof.
  intros Hx Hg.
  destruct (reciprocal_mod_inverse x mod_ ltac:(lia) Hx Hg) as (y & Hret & Hy & Hinv).
  exists y. split; [assumption|].
  assert (Z.gcd y mod_ = 1) as Hgy.
  { apply Z.bezout_1_gcd.
    destruct (mod_congruent mod_ (x * y) 1 ltac:(lia) Hinv) as [c Hc].
    exists x, (- c). lia. }
  destruct (reciprocal_mod_inverse y mod_ ltac:(lia) Hy Hgy) as (x' & Hret' & Hx' & Hinv').
  rewrite Hret'. f_equal.
  apply (inverse_unique y mod_); try assumption; try lia.
  rewrite Z.mul_comm. assumption.
Qed.

Lemma reciprocal_mod_involutive_witness :
  exists y,
    reciprocal_mod 25214903917 (2 ^ 48) = Ret y
    /\ reciprocal_mod y (2 ^ 48) = Ret 25214903917.
Proof.
  apply (reciprocal_mod_involutive 25214903917 (2 ^ 48)).
  - lia.
  - vm_compute. reflexivity.
Defined.

(** X11: the constructor succeeds exactly when [0 < a < m], [b >= 0],
    [0 <= seed < m] and [gcd(a, m) = 1] (so never with [m = 1]); the object
    then holds [a], [b], [m], the seed as its state, and as [ainv] the
    inverse of [a] modulo [m] in [[0, m)]. *)
Theorem init_succeeds_iff (a b m seed : Z) :
  ((exists self, __init__ a b m seed = Ret self)
   <-> 0 < a < m /\ 0 <= b /\ 0 <= seed < m /\ Z.gcd a m = 1)
  /\ forall self, __init__ a b m seed = Ret self ->
       self = mkLcgRandom a (self_ainv self) b m seed
       /\ 0 <= self_ainv self < m
       /\ (a * self_ainv self) mod m = 1.
Proof.
  destruct (init_cases a b m seed) as [[Hargs E] | [[Hargs E] | [Hargs (ainv & E & Hainv & Hinv)]]];
    rewrite E.
  - split; [split; [intros [self Hs]; discriminate | lia] | discriminate].
  - split; [split; [intros [self Hs]; discriminate | lia] | discriminate].
  - split; [split; [intros _; assumption | intros _; eexists; reflexivity]|].
    intros self Hs. injection Hs as <-. cbn. auto.
Qed.

(** ** The main program *)

Section Demo.

Variables (A B M seed : Z) (self0 : LcgRandom).
Hypothesis Hinit : __init__ A B M seed = Ret self0.
Hypothesis Hne : A <> 1.

(** Where [randslow] is after [n] calls of [next], or [-n] of [previous]. *)
Local Abbreviation state_at n := (after (step_by_step n self0)).

Lemma state_at_valid n : valid (state_at n).
Proof.
  apply step_valid, (init_valid _ _ _ _ _ Hinit).
Qed.

Lemma call_skip n : call (skip n) self0 = Ret (tt, state_at n).
Proof.
  pose proof (init_valid _ _ _ _ _ Hinit) as H0.
  destruct (init_args _ _ _ _ _ Hinit) as (Ea & _).
  destruct (skip_step_by_step self0 H0 n ltac:(congruence)) as [E _].
  destruct (step_valid self0 H0 n) as [Hres _].
  unfold call. rewrite E.
  destruct (step_by_step n self0) as [[[] | ex] self']; [reflexivity | discriminate].
Qed.

Lemma call_next n : call next (state_at n) = Ret (tt, state_at (n + 1)).
Proof.
  pose proof (init_valid _ _ _ _ _ Hinit) as H0.
  pose proof (valid_a _ (state_at_valid n)) as Ha.
  rewrite (step_succ self0 H0 n). unfold call.
  rewrite next_run by lia. reflexivity.
Qed.

Lemma call_previous n : call previous (state_at n) = Ret (tt, state_at (n - 1)).
Proof.
  pose proof (init_valid _ _ _ _ _ Hinit) as H0.
  pose proof (valid_a _ (state_at_valid n)) as Ha.
  rewrite (step_pred self0 H0 n). unfold call.
  rewrite previous_run by lia. reflexivity.
Qed.

Lemma check_forward_passes i :
  check_forward A B M seed i (state_at i) = Ret (state_at (i + 1)).
Proof.
  unfold check_forward. rewrite Hinit. cbn [Py.bind].
  rewrite call_skip. cbn [Py.bind snd fst call get_state mbind this mret].
  rewrite Z.eqb_refl. cbn [negb]. rewrite call_next. reflexivity.
Qed.

Lemma check_backward_passes i :
  check_backward A B M seed i (state_at (i + 1)) = Ret (state_at i).
Proof.
  unfold check_backward. rewrite call_previous. cbn [Py.bind].
  rewrite Hinit. cbn [Py.bind].
  rewrite call_skip. cbn [Py.bind snd fst call get_state mbind this mret].
  replace (i + 1 - 1) with i by lia.
  rewrite Z.eqb_refl. reflexivity.
Qed.

Lemma check_backward_skip_passes i :
  check_backward_skip A B M seed i (state_at (- i)) = Ret (state_at (- i - 1)).
Proof.
  unfold check_backward_skip. rewrite Hinit. cbn [Py.bind].
  rewrite call_skip. cbn [Py.bind snd fst call get_state mbind this mret].
  rewrite Z.eqb_refl. cbn [negb]. rewrite call_previous. reflexivity.
Qed.

Lemma forward_loop len : forall start,
  for_each (map Z.of_nat (seq start len)) (check_forward A B M seed)
    (state_at (Z.of_nat start))
  = Ret (state_at (Z.of_nat (start + len))).
Proof.
  induction len as [|len IH]; intros start.
  - rewrite Nat.add_0_r. reflexivity.
  - cbn [seq map for_each]. rewrite check_forward_passes. cbn [Py.bind].
    replace (Z.of_nat start + 1) with (Z.of_nat (S start)) by lia.
    rewrite IH. do 3 f_equal. lia.
Qed.

Lemma backward_loop len :
  for_each (rev (map Z.of_nat (seq 0 len))) (check_backward A B M seed)
    (state_at (Z.of_nat len))
  = Ret (state_at 0).
Proof.
  induction len as [|len IH].
  - reflexivity.
  - rewrite seq_S, map_app, rev_app_distr. cbn [map rev app for_each Nat.add].
    replace (Z.of_nat (S len)) with (Z.of_nat len + 1) by lia.
    rewrite check_backward_passes. cbn [Py.bind]. apply IH.
Qed.

Lemma backward_skip_loop len : forall start,
  for_each (map Z.of_nat (seq start len)) (check_backward_skip A B M seed)
    (state_at (- Z.of_nat start))
  = Ret (state_at (- Z.of_nat (start + len))).
Proof.
  induction len as [|len IH]; intros start.
  - rewrite Nat.add_0_r. reflexivity.
  - cbn [seq map for_each]. rewrite check_backward_skip_passes. cbn [Py.bind].
    replace (- Z.of_nat start - 1) with (- Z.of_nat (S start)) by lia.
    rewrite IH. do 3 f_equal. lia.
Qed.

(** The three loops run to their end for every [N]. *)
Lemma demo_passes N : demo A B M N seed = Ret tt.
Proof.
  unfold demo, Py.range. rewrite Hinit. cbn [Py.bind].
  change self0 with (state_at (Z.of_nat 0)) at 1.
  rewrite forward_loop. cbn [Py.bind Nat.add].
  rewrite backward_loop. cbn [Py.bind].
  change (state_at 0) with (state_at (- Z.of_nat 0)).
  rewrite backward_skip_loop. reflexivity.
Qed.

End Demo.

(** X12: the demo's correctness check passes for every seed the
    constructor accepts: with Java's parameters and [0 <= seed < 2^48] none
    of the 3000 comparisons of [skip] against [next] and [previous] raises
    and the program reaches its last line; with any other seed the first
    constructor call raises [AssertionError]. *)
Theorem main_test_passes (seed : Z) :
  (0 <= seed < 2 ^ 48 -> main seed = Ret tt)
  /\ (~ 0 <= seed < 2 ^ 48 -> main seed = Raise AssertionError).
Proof.
  unfold main. change (Z.shiftl 1 48) with (2 ^ 48). split; intros Hseed.
  - destruct (init_ok 25214903917 11 (2 ^ 48) seed) as (ainv & Hinit & _);
      [lia | lia | assumption | vm_compute; reflexivity |].
    apply (demo_passes _ _ _ _ _ Hinit). discriminate.
  - unfold demo. rewrite init_assert by lia. reflexivity.
Qed.

Lemma main_test_passes_witness : main 1762214400000 = Ret tt.
Proof.
  apply (main_test_passes 1762214400000). lia.
Defined.
